(** * Position and length arithmetic of the tree-sitter runtime

    A shallow embedding of [src/runtime/length.h]: the two value structs
    [TSLength] and [TSPoint] and the inline functions over them, followed by
    the properties of that arithmetic.

    The fields of both structs are [size_t] values.  The struct declarations
    live in [tree_sitter/runtime.h]; what matters here is that every field is
    an unsigned integer of the width of [size_t], which the C standard leaves
    to the platform.  That width is therefore a parameter, [size_bits], of the
    whole development: a field is a [Z] in [0, 2 ^ size_bits), and [+] and [-]
    on fields reduce modulo [2 ^ size_bits], as unsigned arithmetic does in C. *)

From Stdlib Require Import ZArith Bool Lia.

Local Open Scope Z_scope.
Local Open Scope bool_scope.

(** ** The value structs *)

Record TSLength : Set := mkLength { bytes : Z; chars : Z }.

Record TSPoint : Set := mkPoint { line : Z; column : Z }.

(** The C code builds a [TSLength] in a local [result] and then assigns to one
    of its fields; [set_bytes] is that assignment. *)
Definition set_bytes (result : TSLength) (v : Z) : TSLength :=
  {| bytes := v; chars := chars result |}.

(** ** Functions that do no arithmetic *)

Definition ts_length_zero : TSLength := {| bytes := 0; chars := 0 |}.

Definition ts_length_eq (len1 len2 : TSLength) : bool :=
  (bytes len1 =? bytes len2) && (chars len1 =? chars len2).

Definition ts_point_zero : TSPoint := {| line := 1; column := 1 |}.

Definition ts_point_make (line column : Z) : TSPoint :=
  {| line := line; column := column |}.

Definition ts_length_make (bytes chars : Z) : TSLength :=
  {| bytes := bytes; chars := chars |}.

(** A length whose character count is known and whose byte count is not:
    the condition both [ts_length_add] and [ts_length_sub] test on each of
    their operands. *)
Definition indeterminate (len : TSLength) : bool :=
  (0 <? chars len) && (bytes len =? 0).

(** The condition of the [if] in [ts_length_add] and [ts_length_sub], in terms
    of [indeterminate]. *)
Definition poisoned (len1 len2 : TSLength) : bool :=
  indeterminate len1 || indeterminate len2.

(** The normal invariant of a length: at least one byte per character. *)
Definition normal (len : TSLength) : Prop := chars len <= bytes len.

(** Component-wise order on lengths. *)
Definition length_le (len1 len2 : TSLength) : Prop :=
  bytes len1 <= bytes len2 /\ chars len1 <= chars len2.

(** ** [size_t] arithmetic and the functions built on it *)

Section SizeT.

Variable size_bits : positive.

Definition size_modulus : Z := 2 ^ Z.pos size_bits.

(** Conversion of a mathematical integer to [size_t]. *)
Definition to_size_t (z : Z) : Z := z mod size_modulus.

Definition size_add (x y : Z) : Z := to_size_t (x + y).

Definition size_sub (x y : Z) : Z := to_size_t (x - y).

(** The values a [size_t] can hold. *)
Definition in_size_t (z : Z) : bool := (0 <=? z) && (z <? size_modulus).

Definition wf_length (len : TSLength) : Prop :=
  in_size_t (bytes len) = true /\ in_size_t (chars len) = true.

Definition wf_point (p : TSPoint) : Prop :=
  in_size_t (line p) = true /\ in_size_t (column p) = true.

Definition ts_length_add (len1 len2 : TSLength) : TSLength :=
  let result :=
    {| bytes := size_add (bytes len1) (bytes len2);
       chars := size_add (chars len1) (chars len2) |} in
  if ((0 <? chars len1) && (bytes len1 =? 0))
     || ((0 <? chars len2) && (bytes len2 =? 0))
  then set_bytes result 0
  else result.

Definition ts_length_sub (len1 len2 : TSLength) : TSLength :=
  let result :=
    {| bytes := size_sub (bytes len1) (bytes len2);
       chars := size_sub (chars len1) (chars len2) |} in
  if ((0 <? chars len1) && (bytes len1 =? 0))
     || ((0 <? chars len2) && (bytes len2 =? 0))
  then set_bytes result 0
  else result.

Definition ts_point_add (point1 point2 : TSPoint) : TSPoint :=
  let line' := size_add (line point1) (line point2) in
  let column' :=
    if line point2 =? 0
    then size_add (column point1) (column point2)
    else column point2 in
  {| line := line'; column := column' |}.

Definition ts_point_sub (point1 point2 : TSPoint) : TSPoint :=
  if line point1 =? line point2
  then {| line := 0; column := size_sub (column point1) (column point2) |}
  else {| line := size_sub (line point1) (line point2);
          column := column point1 |}.

(** A pair of lengths on which subtraction creates the indeterminate marker
    out of determinate operands: both are [size_t] pairs, neither is
    indeterminate, both satisfy [bytes >= chars], [b <= a] component-wise, and
    yet [ts_length_sub a b] has bytes 0 and chars > 0, so that later
    arithmetic takes it for an indeterminate length. *)
Definition sub_makes_indeterminate (a b : TSLength) : Prop :=
  wf_length a /\ wf_length b
  /\ indeterminate a = false /\ indeterminate b = false
  /\ normal a /\ normal b
  /\ length_le b a
  /\ bytes (ts_length_sub a b) = 0
  /\ 0 < chars (ts_length_sub a b)
  /\ indeterminate (ts_length_sub a b) = true.

(** ** Facts about [size_t] arithmetic *)

Lemma size_modulus_gt_1 : 1 < size_modulus.
Proof.
  unfold size_modulus. apply Z.pow_gt_1; lia.
Qed.

Lemma in_size_t_spec (z : Z) :
  in_size_t z = true <-> 0 <= z < size_modulus.
Proof.
  unfold in_size_t. rewrite andb_true_iff, Z.leb_le, Z.ltb_lt. tauto.
Qed.

Lemma to_size_t_range (z : Z) : 0 <= to_size_t z < size_modulus.
Proof.
  unfold to_size_t. apply Z.mod_pos_bound.
  pose proof size_modulus_gt_1. lia.
Qed.

Lemma to_size_t_in (z : Z) : in_size_t (to_size_t z) = true.
Proof.
  apply in_size_t_spec, to_size_t_range.
Qed.

Lemma to_size_t_small (z : Z) :
  0 <= z < size_modulus -> to_size_t z = z.
Proof.
  intros Hz. unfold to_size_t. now apply Z.mod_small.
Qed.

(** Adding without overflow is the mathematical sum. *)
Lemma size_add_exact (x y : Z) :
  0 <= x + y < size_modulus -> size_add x y = x + y.
Proof.
  intros H. unfold size_add. now apply to_size_t_small.
Qed.

(** Adding with overflow loses one modulus. *)
Lemma size_add_overflow (x y : Z) :
  size_modulus <= x + y < 2 * size_modulus ->
  size_add x y = x + y - size_modulus.
Proof.
  intros H. unfold size_add, to_size_t.
  symmetry. apply (Z.mod_unique _ _ 1); lia.
Qed.

(** Subtracting without underflow is the mathematical difference. *)
Lemma size_sub_exact (x y : Z) :
  0 <= x - y < size_modulus -> size_sub x y = x - y.
Proof.
  intros H. unfold size_sub. now apply to_size_t_small.
Qed.

(** Subtracting with underflow wraps: one modulus is added. *)
Lemma size_sub_underflow (x y : Z) :
  - size_modulus <= x - y < 0 ->
  size_sub x y = x - y + size_modulus.
Proof.
  intros H. unfold size_sub, to_size_t.
  symmetry. apply (Z.mod_unique _ _ (-1)); lia.
Qed.

Lemma size_add_0_r (x : Z) : in_size_t x = true -> size_add x 0 = x.
Proof.
  intros H%in_size_t_spec. rewrite size_add_exact; lia.
Qed.

Lemma size_add_0_l (x : Z) : in_size_t x = true -> size_add 0 x = x.
Proof.
  intros H%in_size_t_spec. rewrite size_add_exact; lia.
Qed.

Lemma size_sub_0_r (x : Z) : in_size_t x = true -> size_sub x 0 = x.
Proof.
  intros H%in_size_t_spec. rewrite size_sub_exact; lia.
Qed.

Lemma size_add_comm (x y : Z) : size_add x y = size_add y x.
Proof.
  unfold size_add. now rewrite Z.add_comm.
Qed.

(** The successor of a [size_t] is never the value itself, overflow or not. *)
Lemma size_add_1_neq (x : Z) : in_size_t x = true -> size_add x 1 <> x.
Proof.
  intros H%in_size_t_spec.
  pose proof size_modulus_gt_1 as HM.
  destruct (Z.lt_ge_cases (x + 1) size_modulus) as [Hlt | Hge].
  - rewrite size_add_exact; lia.
  - rewrite size_add_overflow; lia.
Qed.

(** ** Equality of lengths *)

Lemma ts_length_eq_spec (len1 len2 : TSLength) :
  ts_length_eq len1 len2 = true <-> len1 = len2.
Proof.
  destruct len1 as [b1 c1], len2 as [b2 c2]. unfold ts_length_eq; simpl.
  rewrite andb_true_iff, !Z.eqb_eq. split.
  - intros [-> ->]. reflexivity.
  - intros E. injection E as -> ->. split; reflexivity.
Qed.

(** ** The poisoning test *)

Lemma ts_length_add_poisoned (len1 len2 : TSLength) :
  poisoned len1 len2 = true ->
  ts_length_add len1 len2 =
  {| bytes := 0; chars := size_add (chars len1) (chars len2) |}.
Proof.
  unfold poisoned, indeterminate, ts_length_add. intros ->. reflexivity.
Qed.

Lemma ts_length_add_clean (len1 len2 : TSLength) :
  poisoned len1 len2 = false ->
  ts_length_add len1 len2 =
  {| bytes := size_add (bytes len1) (bytes len2);
     chars := size_add (chars len1) (chars len2) |}.
Proof.
  unfold poisoned, indeterminate, ts_length_add. intros ->. reflexivity.
Qed.

Lemma ts_length_sub_poisoned (len1 len2 : TSLength) :
  poisoned len1 len2 = true ->
  ts_length_sub len1 len2 =
  {| bytes := 0; chars := size_sub (chars len1) (chars len2) |}.
Proof.
  unfold poisoned, indeterminate, ts_length_sub. intros ->. reflexivity.
Qed.

Lemma ts_length_sub_clean (len1 len2 : TSLength) :
  poisoned len1 len2 = false ->
  ts_length_sub len1 len2 =
  {| bytes := size_sub (bytes len1) (bytes len2);
     chars := size_sub (chars len1) (chars len2) |}.
Proof.
  unfold poisoned, indeterminate, ts_length_sub. intros ->. reflexivity.
Qed.

(** The character count never depends on the poisoning test. *)
Lemma ts_length_add_chars (len1 len2 : TSLength) :
  chars (ts_length_add len1 len2) = size_add (chars len1) (chars len2).
Proof.
  unfold ts_length_add. now destruct (_ || _).
Qed.

Lemma ts_length_sub_chars (len1 len2 : TSLength) :
  chars (ts_length_sub len1 len2) = size_sub (chars len1) (chars len2).
Proof.
  unfold ts_length_sub. now destruct (_ || _).
Qed.

Lemma poisoned_comm (len1 len2 : TSLength) :
  poisoned len1 len2 = poisoned len2 len1.
Proof.
  unfold poisoned. apply orb_comm.
Qed.

(** A length that satisfies [bytes >= chars] cannot be indeterminate. *)
Lemma normal_not_indeterminate (len : TSLength) :
  normal len -> indeterminate len = false.
Proof.
  unfold normal. intros H. unfold indeterminate.
  destruct (Z.ltb_spec 0 (chars len)); [| reflexivity].
  destruct (Z.eqb_spec (bytes len) 0); [lia | reflexivity].
Qed.

(** ** Poisoning by an indeterminate operand *)

(** C1. If either operand is indeterminate (chars > 0 and bytes = 0), the
    result of [ts_length_add] and of [ts_length_sub] has bytes 0, and its
    chars is the [size_t] sum, respectively difference, of the operands'
    chars: the poisoning touches the bytes field only. *)
Theorem ts_length_indeterminate_poisons (a b : TSLength) :
  indeterminate a = true \/ indeterminate b = true ->
  bytes (ts_length_add a b) = 0
  /\ chars (ts_length_add a b) = (chars a + chars b) mod 2 ^ Z.pos size_bits
  /\ bytes (ts_length_sub a b) = 0
  /\ chars (ts_length_sub a b) = (chars a - chars b) mod 2 ^ Z.pos size_bits.
Proof.
  intros H.
  assert (Hp : poisoned a b = true).
  { unfold poisoned. apply orb_true_iff. exact H. }
  rewrite (ts_length_add_poisoned _ _ Hp), (ts_length_sub_poisoned _ _ Hp).
  repeat split.
Qed.

(** ** The two branches of point addition and subtraction *)

Lemma ts_point_sub_same_line (p1 p2 : TSPoint) :
  line p1 = line p2 ->
  ts_point_sub p1 p2 =
  {| line := 0; column := size_sub (column p1) (column p2) |}.
Proof.
  intros H. unfold ts_point_sub.
  now rewrite (proj2 (Z.eqb_eq _ _) H).
Qed.

Lemma ts_point_sub_other_line (p1 p2 : TSPoint) :
  line p1 <> line p2 ->
  ts_point_sub p1 p2 =
  {| line := size_sub (line p1) (line p2); column := column p1 |}.
Proof.
  intros H. unfold ts_point_sub.
  now rewrite (proj2 (Z.eqb_neq _ _) H).
Qed.

(** C2. [ts_point_add p1 p2] keeps [p1]'s line and adds the columns when
    [p2.line = 0]; when [p2.line > 0] it adds the lines and takes [p2]'s
    column, dropping [p1]'s.  Sums are [size_t] sums. *)
Theorem ts_point_add_branches (p1 p2 : TSPoint) :
  wf_point p1 ->
  (line p2 = 0 ->
   ts_point_add p1 p2 =
   {| line := line p1;
      column := (column p1 + column p2) mod 2 ^ Z.pos size_bits |})
  /\ (line p2 > 0 ->
      ts_point_add p1 p2 =
      {| line := (line p1 + line p2) mod 2 ^ Z.pos size_bits;
         column := column p2 |}).
Proof.
  intros [Hl _]. unfold ts_point_add. split; intros H2.
  - rewrite H2, size_add_0_r by exact Hl. reflexivity.
  - destruct (Z.eqb_spec (line p2) 0); [lia | reflexivity].
Qed.

(** C3. [ts_point_sub p1 p2] is (0, p1.column - p2.column) when the lines are
    equal, and (p1.line - p2.line, p1.column) when they differ: the column of
    [p1] is then returned as it is.  Differences are [size_t] differences. *)
Theorem ts_point_sub_branches (p1 p2 : TSPoint) :
  (line p1 = line p2 ->
   ts_point_sub p1 p2 =
   {| line := 0;
      column := (column p1 - column p2) mod 2 ^ Z.pos size_bits |})
  /\ (line p1 <> line p2 ->
      ts_point_sub p1 p2 =
      {| line := (line p1 - line p2) mod 2 ^ Z.pos size_bits;
         column := column p1 |}).
Proof.
  split; intros H.
  - now rewrite ts_point_sub_same_line.
  - now rewrite ts_point_sub_other_line.
Qed.

(** ** The zero length *)

Lemma indeterminate_zero : indeterminate ts_length_zero = false.
Proof. reflexivity. Qed.

(** C4. [ts_length_zero] is an identity for lengths: adding it, on either
    side, or subtracting it gives the length back, also when the length is
    indeterminate. *)
Theorem ts_length_zero_identity (a : TSLength) :
  wf_length a ->
  ts_length_add a ts_length_zero = a
  /\ ts_length_add ts_length_zero a = a
  /\ ts_length_sub a ts_length_zero = a.
Proof.
  intros [Hb Hc]. destruct a as [ab ac]; simpl in Hb, Hc.
  destruct (indeterminate (mkLength ab ac)) eqn:Hi.
  - assert (ab = 0) as ->.
    { unfold indeterminate in Hi; simpl in Hi.
      apply andb_true_iff in Hi. destruct Hi as [_ Hz].
      now apply Z.eqb_eq. }
    rewrite !ts_length_add_poisoned, ts_length_sub_poisoned
      by (unfold poisoned; rewrite Hi; auto using orb_true_r).
    simpl. rewrite size_add_0_r, size_add_0_l, size_sub_0_r by exact Hc.
    repeat split.
  - rewrite !ts_length_add_clean, ts_length_sub_clean
      by (unfold poisoned; rewrite Hi; reflexivity).
    simpl.
    rewrite !size_add_0_r, !size_add_0_l, !size_sub_0_r by assumption.
    repeat split.
Qed.

(** ** The normal invariant under addition and subtraction *)

(** C5, as the code has it.  For lengths [a] and [b] that satisfy
    [bytes >= chars] and are not indeterminate: [ts_length_add a b] satisfies
    [bytes >= chars] whenever the byte sum does not overflow [size_t]; and
    when [b <= a] component-wise, [ts_length_sub a b] satisfies
    [bytes >= chars] exactly when [b]'s surplus of bytes over chars is at most
    [a]'s. *)
Theorem ts_length_normal_preserved (a b : TSLength) :
  wf_length a -> wf_length b ->
  normal a -> normal b ->
  indeterminate a = false -> indeterminate b = false ->
  (bytes a + bytes b < 2 ^ Z.pos size_bits -> normal (ts_length_add a b))
  /\ (length_le b a ->
      (normal (ts_length_sub a b) <->
       bytes b - chars b <= bytes a - chars a)).
Proof.
  intros [Hab Hac] [Hbb Hbc] Ha Hb Hia Hib.
  apply in_size_t_spec in Hab, Hac, Hbb, Hbc.
  assert (Hp : poisoned a b = false) by (unfold poisoned; now rewrite Hia, Hib).
  unfold normal in *. fold size_modulus. split.
  - intros Hsum. rewrite (ts_length_add_clean _ _ Hp); simpl.
    rewrite !size_add_exact; lia.
  - intros [Hlb Hlc]. rewrite (ts_length_sub_clean _ _ Hp); simpl.
    rewrite !size_sub_exact; lia.
Qed.

(** ** Wrap-around of subtraction *)

Lemma in_size_t_0 : in_size_t 0 = true.
Proof.
  apply in_size_t_spec. pose proof size_modulus_gt_1. lia.
Qed.

(** Whatever the operands, the difference of two lengths is a pair of
    [size_t] values. *)
Lemma ts_length_sub_wf (a b : TSLength) : wf_length (ts_length_sub a b).
Proof.
  unfold ts_length_sub, wf_length.
  destruct (_ || _); simpl; split;
    first [apply to_size_t_in | apply in_size_t_0].
Qed.

Lemma ts_point_sub_wf (p1 p2 : TSPoint) :
  wf_point p1 -> wf_point (ts_point_sub p1 p2).
Proof.
  intros [Hl Hc]. unfold ts_point_sub, wf_point.
  destruct (line p1 =? line p2); simpl; split;
    first [apply to_size_t_in | apply in_size_t_0 | assumption].
Qed.

(** C6. Subtraction never fails and never checks for underflow: the chars of
    [ts_length_sub a b] is [(a.chars - b.chars) mod 2 ^ size_bits], and so is
    its bytes for the bytes fields when neither operand is indeterminate; the
    field that [ts_point_sub] differences is reduced the same way.  When the
    second operand is the larger, the result is the difference plus
    [2 ^ size_bits], and in every case it is a [size_t] value again. *)
Theorem ts_sub_wraps (a b : TSLength) (p1 p2 : TSPoint) :
  chars (ts_length_sub a b) = (chars a - chars b) mod 2 ^ Z.pos size_bits
  /\ (indeterminate a = false -> indeterminate b = false ->
      bytes (ts_length_sub a b) = (bytes a - bytes b) mod 2 ^ Z.pos size_bits)
  /\ (line p1 = line p2 ->
      column (ts_point_sub p1 p2) =
      (column p1 - column p2) mod 2 ^ Z.pos size_bits)
  /\ (line p1 <> line p2 ->
      line (ts_point_sub p1 p2) = (line p1 - line p2) mod 2 ^ Z.pos size_bits)
  /\ (wf_length a -> wf_length b -> chars a < chars b ->
      chars (ts_length_sub a b) = 2 ^ Z.pos size_bits - (chars b - chars a))
  /\ (wf_point p1 -> wf_point p2 -> line p1 < line p2 ->
      line (ts_point_sub p1 p2) = 2 ^ Z.pos size_bits - (line p2 - line p1))
  /\ wf_length (ts_length_sub a b)
  /\ (wf_point p1 -> wf_point (ts_point_sub p1 p2)).
Proof.
  fold size_modulus.
  repeat match goal with |- _ /\ _ => split end.
  - apply ts_length_sub_chars.
  - intros Hia Hib. rewrite ts_length_sub_clean; [reflexivity |].
    unfold poisoned. now rewrite Hia, Hib.
  - intros H. now rewrite ts_point_sub_same_line.
  - intros H. now rewrite ts_point_sub_other_line.
  - intros [_ Hac] [_ Hbc] Hlt. apply in_size_t_spec in Hac, Hbc.
    rewrite ts_length_sub_chars, size_sub_underflow; lia.
  - intros [Hl1 _] [Hl2 _] Hlt. apply in_size_t_spec in Hl1, Hl2.
    rewrite ts_point_sub_other_line by lia. simpl.
    rewrite size_sub_underflow; lia.
  - apply ts_length_sub_wf.
  - apply ts_point_sub_wf.
Qed.

(** ** The origin of points *)

(** C7. [ts_point_zero] is the point (line 1, column 1), which is not (0, 0),
    and it is what [ts_point_make 1 1] builds. *)
Theorem ts_point_zero_is_1_1 :
  ts_point_zero = {| line := 1; column := 1 |}
  /\ ts_point_zero <> {| line := 0; column := 0 |}
  /\ ts_point_zero = ts_point_make 1 1.
Proof.
  repeat split. discriminate.
Qed.

(** ** Commutativity of length addition *)

(** C8. [ts_length_add] is commutative on all lengths, indeterminate or not:
    the sums are commutative and the poisoning test is symmetric. *)
Theorem ts_length_add_comm (a b : TSLength) :
  ts_length_add a b = ts_length_add b a.
Proof.
  destruct (poisoned a b) eqn:Hp.
  - rewrite (ts_length_add_poisoned a b Hp).
    rewrite poisoned_comm in Hp. rewrite (ts_length_add_poisoned b a Hp).
    now rewrite size_add_comm.
  - rewrite (ts_length_add_clean a b Hp).
    rewrite poisoned_comm in Hp. rewrite (ts_length_add_clean b a Hp).
    now rewrite (size_add_comm (bytes a)), (size_add_comm (chars a)).
Qed.

(** ** Subtraction can create the indeterminate marker *)

(** Equal byte counts and a larger character count on the left are enough. *)
Lemma sub_makes_indeterminate_intro (n c1 c2 : Z) :
  0 <= c2 < c1 -> c1 <= n < size_modulus -> (c2 = 0 \/ 0 < n) ->
  sub_makes_indeterminate (ts_length_make n c1) (ts_length_make n c2).
Proof.
  intros Hc Hn Hz.
  assert (Hi1 : indeterminate (ts_length_make n c1) = false)
    by (apply normal_not_indeterminate; unfold normal; simpl; lia).
  assert (Hi2 : indeterminate (ts_length_make n c2) = false)
    by (apply normal_not_indeterminate; unfold normal; simpl; lia).
  assert (Hsub : ts_length_sub (ts_length_make n c1) (ts_length_make n c2)
                 = {| bytes := 0; chars := c1 - c2 |}).
  { rewrite ts_length_sub_clean by (unfold poisoned; now rewrite Hi1, Hi2).
    simpl. rewrite !size_sub_exact by lia. now rewrite Z.sub_diag. }
  unfold sub_makes_indeterminate. rewrite Hsub.
  unfold wf_length, normal, length_le; simpl.
  rewrite !in_size_t_spec.
  repeat apply conj; try assumption; try lia.
  unfold indeterminate; simpl.
  destruct (Z.ltb_spec 0 (c1 - c2)); [reflexivity | lia].
Qed.

(** C9. There are determinate lengths [a] and [b], each with
    [bytes >= chars] and with [b <= a] component-wise, whose difference has
    bytes 0 and chars > 0 and so counts as indeterminate afterwards.  Such a
    pair exists at every width of [size_t]; (5, 5) and (5, 3) is one as soon
    as [size_t] has the three bits that 5 needs. *)
Theorem ts_length_sub_makes_indeterminate :
  (exists a b : TSLength, sub_makes_indeterminate a b)
  /\ ((3 <= size_bits)%positive ->
      sub_makes_indeterminate (ts_length_make 5 5) (ts_length_make 5 3)).
Proof.
  pose proof size_modulus_gt_1 as HM. split.
  - exists (ts_length_make 1 1), (ts_length_make 1 0).
    apply sub_makes_indeterminate_intro; lia.
  - intros Hw. apply sub_makes_indeterminate_intro; try lia.
    assert (2 ^ 3 <= size_modulus)
      by (unfold size_modulus; apply Z.pow_le_mono_r; lia).
    lia.
Qed.

(** ** The origin is not a unit of point addition *)

(** C10. Adding [ts_point_zero], the point (1, 1), to a point [p] gives line
    [p.line + 1] (a [size_t] sum) and column 1, which is never [p] itself;
    the point that [ts_point_add] leaves [p] unchanged with, on the right, is
    [ts_point_make 0 0]. *)
Theorem ts_point_zero_not_add_identity (p : TSPoint) :
  wf_point p ->
  line (ts_point_add p ts_point_zero) = (line p + 1) mod 2 ^ Z.pos size_bits
  /\ column (ts_point_add p ts_point_zero) = 1
  /\ ts_point_add p ts_point_zero <> p
  /\ ts_point_add p (ts_point_make 0 0) = p.
Proof.
  intros [Hl Hc]. repeat match goal with |- _ /\ _ => split end.
  - reflexivity.
  - reflexivity.
  - intros E. apply (f_equal line) in E. simpl in E.
    now apply (size_add_1_neq (line p)).
  - destruct p as [l c]; simpl in Hl, Hc. unfold ts_point_add; simpl.
    now rewrite !size_add_0_r.
Qed.

End SizeT.

(** * Concrete instances, on a 64-bit [size_t] *)

(** ** The cases listed as testable in the specification *)

Example add_determinate :
  ts_length_add 64 (ts_length_make 10 5) (ts_length_make 7 3)
  = ts_length_make 17 8
  /\ ts_length_add 64 (ts_length_make 7 3) (ts_length_make 10 5)
     = ts_length_make 17 8.
Proof. split; reflexivity. Qed.

Example add_poisoned :
  ts_length_add 64 (ts_length_make 0 5) (ts_length_make 10 3)
  = ts_length_make 0 8.
Proof. reflexivity. Qed.

Example sub_poisoned :
  ts_length_sub 64 (ts_length_make 10 3) (ts_length_make 0 5)
  = ts_length_make 0 (2 ^ 64 - 2).
Proof. reflexivity. Qed.

Example point_add_same_line :
  ts_point_add 64 (ts_point_make 2 5) (ts_point_make 0 3) = ts_point_make 2 8.
Proof. reflexivity. Qed.

Example point_add_crossing_lines :
  ts_point_add 64 (ts_point_make 2 5) (ts_point_make 1 3) = ts_point_make 3 3.
Proof. reflexivity. Qed.

Example point_sub_same_line :
  ts_point_sub 64 (ts_point_make 4 10) (ts_point_make 4 3) = ts_point_make 0 7.
Proof. reflexivity. Qed.

Example point_sub_different_lines :
  ts_point_sub 64 (ts_point_make 4 10) (ts_point_make 2 3)
  = ts_point_make 2 10.
Proof. reflexivity. Qed.

Example eq_exact :
  ts_length_eq (ts_length_make 3 3) (ts_length_make 3 3) = true
  /\ ts_length_eq (ts_length_make 3 3) (ts_length_make 3 4) = false.
Proof. split; reflexivity. Qed.

(** Zero on the left of a subtraction is not an identity: the result is the
    operand negated modulo [2 ^ 64]. *)
Example sub_from_zero :
  ts_length_sub 64 ts_length_zero (ts_length_make 1 1)
  = ts_length_make (2 ^ 64 - 1) (2 ^ 64 - 1).
Proof. reflexivity. Qed.

(** ** Instances of the theorems above *)

Lemma ts_length_indeterminate_poisons_witness :
  indeterminate (ts_length_make 0 5) = true
  /\ bytes (ts_length_add 64 (ts_length_make 0 5) (ts_length_make 10 3)) = 0
  /\ chars (ts_length_add 64 (ts_length_make 0 5) (ts_length_make 10 3)) = 8
  /\ bytes (ts_length_sub 64 (ts_length_make 0 5) (ts_length_make 10 3)) = 0
  /\ chars (ts_length_sub 64 (ts_length_make 0 5) (ts_length_make 10 3)) = 2.
Proof.
  split; [reflexivity |].
  apply (ts_length_indeterminate_poisons 64
           (ts_length_make 0 5) (ts_length_make 10 3)).
  left. reflexivity.
Defined.

Lemma ts_point_add_branches_witness :
  wf_point 64 (ts_point_make 2 5)
  /\ ts_point_add 64 (ts_point_make 2 5) (ts_point_make 0 3)
     = ts_point_make 2 8
  /\ ts_point_add 64 (ts_point_make 2 5) (ts_point_make 1 3)
     = ts_point_make 3 3.
Proof.
  assert (Hwf : wf_point 64 (ts_point_make 2 5)) by (split; reflexivity).
  split; [exact Hwf |]. split.
  - apply (proj1 (ts_point_add_branches 64
                    (ts_point_make 2 5) (ts_point_make 0 3) Hwf)).
    reflexivity.
  - apply (proj2 (ts_point_add_branches 64
                    (ts_point_make 2 5) (ts_point_make 1 3) Hwf)).
    reflexivity.
Defined.

Lemma ts_point_sub_branches_witness :
  ts_point_sub 64 (ts_point_make 4 10) (ts_point_make 4 3)
  = ts_point_make 0 7
  /\ ts_point_sub 64 (ts_point_make 4 10) (ts_point_make 2 3)
     = ts_point_make 2 10.
Proof.
  split.
  - apply (proj1 (ts_point_sub_branches 64
                    (ts_point_make 4 10) (ts_point_make 4 3))).
    reflexivity.
  - apply (proj2 (ts_point_sub_branches 64
                    (ts_point_make 4 10) (ts_point_make 2 3))).
    simpl. discriminate.
Defined.

Lemma ts_length_zero_identity_witness :
  wf_length 64 (ts_length_make 0 5)
  /\ indeterminate (ts_length_make 0 5) = true
  /\ ts_length_add 64 (ts_length_make 0 5) ts_length_zero
     = ts_length_make 0 5
  /\ ts_length_add 64 ts_length_zero (ts_length_make 0 5)
     = ts_length_make 0 5
  /\ ts_length_sub 64 (ts_length_make 0 5) ts_length_zero
     = ts_length_make 0 5.
Proof.
  assert (Hwf : wf_length 64 (ts_length_make 0 5)) by (split; reflexivity).
  split; [exact Hwf |]. split; [reflexivity |].
  exact (ts_length_zero_identity 64 (ts_length_make 0 5) Hwf).
Defined.

(** C5 as the specification words it fails twice.  Subtraction: (5, 5) and
    (5, 3) are determinate, satisfy [bytes >= chars] and are ordered
    component-wise, and their difference (0, 2) has fewer bytes than chars.
    Addition: (2^63, 1) twice satisfies the same conditions, and the byte sum
    overflows to 0 while the chars sum is 2. *)
Lemma ts_length_normal_not_preserved :
  (wf_length 64 (ts_length_make 5 5) /\ wf_length 64 (ts_length_make 5 3)
   /\ normal (ts_length_make 5 5) /\ normal (ts_length_make 5 3)
   /\ indeterminate (ts_length_make 5 5) = false
   /\ indeterminate (ts_length_make 5 3) = false
   /\ length_le (ts_length_make 5 3) (ts_length_make 5 5)
   /\ ts_length_sub 64 (ts_length_make 5 5) (ts_length_make 5 3)
      = ts_length_make 0 2
   /\ ~ normal (ts_length_sub 64 (ts_length_make 5 5) (ts_length_make 5 3)))
  /\ (wf_length 64 (ts_length_make (2 ^ 63) 1)
      /\ normal (ts_length_make (2 ^ 63) 1)
      /\ indeterminate (ts_length_make (2 ^ 63) 1) = false
      /\ ts_length_add 64 (ts_length_make (2 ^ 63) 1)
           (ts_length_make (2 ^ 63) 1)
         = ts_length_make 0 2
      /\ ~ normal (ts_length_add 64 (ts_length_make (2 ^ 63) 1)
                     (ts_length_make (2 ^ 63) 1))).
Proof.
  unfold wf_length, normal, length_le.
  repeat match goal with |- _ /\ _ => split end;
    try reflexivity; vm_compute; congruence.
Qed.

Lemma ts_length_normal_preserved_witness :
  wf_length 64 (ts_length_make 10 5) /\ wf_length 64 (ts_length_make 7 3)
  /\ normal (ts_length_make 10 5) /\ normal (ts_length_make 7 3)
  /\ length_le (ts_length_make 7 3) (ts_length_make 10 5)
  /\ normal (ts_length_add 64 (ts_length_make 10 5) (ts_length_make 7 3))
  /\ normal (ts_length_sub 64 (ts_length_make 10 5) (ts_length_make 7 3)).
Proof.
  assert (Hwa : wf_length 64 (ts_length_make 10 5)) by (split; reflexivity).
  assert (Hwb : wf_length 64 (ts_length_make 7 3)) by (split; reflexivity).
  assert (Hna : normal (ts_length_make 10 5)) by (unfold normal; simpl; lia).
  assert (Hnb : normal (ts_length_make 7 3)) by (unfold normal; simpl; lia).
  assert (Hle : length_le (ts_length_make 7 3) (ts_length_make 10 5))
    by (unfold length_le; simpl; lia).
  destruct (ts_length_normal_preserved 64
              (ts_length_make 10 5) (ts_length_make 7 3)
              Hwa Hwb Hna Hnb eq_refl eq_refl) as [Hadd Hsub].
  split; [exact Hwa |]. split; [exact Hwb |].
  split; [exact Hna |]. split; [exact Hnb |].
  split; [exact Hle |]. split.
  - apply Hadd. simpl. lia.
  - apply (Hsub Hle). simpl. lia.
Defined.

Lemma ts_sub_wraps_witness :
  chars (ts_length_sub 64 (ts_length_make 10 3) (ts_length_make 20 5))
  = 2 ^ 64 - 2
  /\ bytes (ts_length_sub 64 (ts_length_make 10 3) (ts_length_make 20 5))
     = 2 ^ 64 - 10
  /\ line (ts_point_sub 64 (ts_point_make 2 3) (ts_point_make 4 10))
     = 2 ^ 64 - 2
  /\ column (ts_point_sub 64 (ts_point_make 4 3) (ts_point_make 4 10))
     = 2 ^ 64 - 7.
Proof.
  pose proof (ts_sub_wraps 64 (ts_length_make 10 3) (ts_length_make 20 5)
                (ts_point_make 2 3) (ts_point_make 4 10))
    as (_ & Hbytes & _ & _ & Hchars & Hline & _).
  pose proof (ts_sub_wraps 64 (ts_length_make 10 3) (ts_length_make 20 5)
                (ts_point_make 4 3) (ts_point_make 4 10))
    as (_ & _ & Hcolumn & _).
  repeat match goal with |- _ /\ _ => split end.
  - apply Hchars; [split; reflexivity | split; reflexivity | reflexivity].
  - apply Hbytes; reflexivity.
  - apply Hline; [split; reflexivity | split; reflexivity | reflexivity].
  - apply Hcolumn. reflexivity.
Defined.

Lemma ts_length_sub_makes_indeterminate_witness :
  sub_makes_indeterminate 64 (ts_length_make 5 5) (ts_length_make 5 3)
  /\ ts_length_sub 64 (ts_length_make 5 5) (ts_length_make 5 3)
     = ts_length_make 0 2.
Proof.
  split; [| reflexivity].
  apply (proj2 (ts_length_sub_makes_indeterminate 64)).
  discriminate.
Defined.

Lemma ts_point_zero_not_add_identity_witness :
  wf_point 64 (ts_point_make 2 5)
  /\ line (ts_point_add 64 (ts_point_make 2 5) ts_point_zero) = 3
  /\ column (ts_point_add 64 (ts_point_make 2 5) ts_point_zero) = 1
  /\ ts_point_add 64 (ts_point_make 2 5) ts_point_zero <> ts_point_make 2 5
  /\ ts_point_add 64 (ts_point_make 2 5) (ts_point_make 0 0)
     = ts_point_make 2 5.
Proof.
  assert (Hwf : wf_point 64 (ts_point_make 2 5)) by (split; reflexivity).
  split; [exact Hwf |].
  exact (ts_point_zero_not_add_identity 64 (ts_point_make 2 5) Hwf).
Defined.

(** * How the operations compose *)

Section Composition.

Variable size_bits : positive.

(** ** Cancellation laws of [size_t] arithmetic, overflow included *)

Lemma size_add_assoc (x y z : Z) :
  size_add size_bits (size_add size_bits x y) z
  = size_add size_bits x (size_add size_bits y z).
Proof.
  unfold size_add, to_size_t.
  rewrite Zplus_mod_idemp_l, Zplus_mod_idemp_r. f_equal. lia.
Qed.

Lemma size_sub_add_cancel_r (x y : Z) :
  in_size_t size_bits x = true ->
  size_sub size_bits (size_add size_bits x y) y = x.
Proof.
  intros Hx%in_size_t_spec. unfold size_sub, size_add, to_size_t.
  rewrite Zminus_mod_idemp_l.
  replace (x + y - y) with x by lia. now apply Z.mod_small.
Qed.

Lemma size_sub_add_cancel_l (x y : Z) :
  in_size_t size_bits y = true ->
  size_sub size_bits (size_add size_bits x y) x = y.
Proof.
  intros Hy. rewrite size_add_comm. now apply size_sub_add_cancel_r.
Qed.

Lemma size_add_sub_cancel (x y : Z) :
  in_size_t size_bits y = true ->
  size_add size_bits x (size_sub size_bits y x) = y.
Proof.
  intros Hy%in_size_t_spec. unfold size_sub, size_add, to_size_t.
  rewrite Zplus_mod_idemp_r.
  replace (x + (y - x)) with y by lia. now apply Z.mod_small.
Qed.

Lemma size_add_sub_cancel_l (x y : Z) :
  in_size_t size_bits y = true ->
  size_add size_bits (size_sub size_bits y x) x = y.
Proof.
  intros Hy. rewrite size_add_comm. now apply size_add_sub_cancel.
Qed.

Lemma size_sub_diag (x : Z) : size_sub size_bits x x = 0.
Proof.
  unfold size_sub, to_size_t. rewrite Z.sub_diag. apply Zmod_0_l.
Qed.

Lemma size_sub_eq_0 (x y : Z) :
  in_size_t size_bits x = true -> in_size_t size_bits y = true ->
  (size_sub size_bits x y = 0 <-> x = y).
Proof.
  intros Hx%in_size_t_spec Hy%in_size_t_spec. split.
  - intros E. destruct (Z.lt_ge_cases x y) as [Hlt | Hge].
    + rewrite size_sub_underflow in E; lia.
    + rewrite size_sub_exact in E; lia.
  - intros ->. apply size_sub_diag.
Qed.

Lemma size_add_fixed (x y : Z) :
  in_size_t size_bits x = true -> in_size_t size_bits y = true ->
  (size_add size_bits x y = x <-> y = 0).
Proof.
  intros Hx%in_size_t_spec Hy%in_size_t_spec. split.
  - intros E.
    destruct (Z.lt_ge_cases (x + y) (size_modulus size_bits)) as [Hlt | Hge].
    + rewrite size_add_exact in E; lia.
    + rewrite size_add_overflow in E; lia.
  - intros ->. rewrite size_add_exact; lia.
Qed.

(** ** One equation for each length operation *)

Lemma ts_length_add_eqn (a b : TSLength) :
  ts_length_add size_bits a b =
  {| bytes := if poisoned a b then 0
              else size_add size_bits (bytes a) (bytes b);
     chars := size_add size_bits (chars a) (chars b) |}.
Proof.
  destruct (poisoned a b) eqn:Hp.
  - now apply ts_length_add_poisoned.
  - now apply ts_length_add_clean.
Qed.

Lemma ts_length_sub_eqn (a b : TSLength) :
  ts_length_sub size_bits a b =
  {| bytes := if poisoned a b then 0
              else size_sub size_bits (bytes a) (bytes b);
     chars := size_sub size_bits (chars a) (chars b) |}.
Proof.
  destruct (poisoned a b) eqn:Hp.
  - now apply ts_length_sub_poisoned.
  - now apply ts_length_sub_clean.
Qed.

Lemma indeterminate_spec (a : TSLength) :
  indeterminate a = true <-> 0 < chars a /\ bytes a = 0.
Proof.
  unfold indeterminate. now rewrite andb_true_iff, Z.ltb_lt, Z.eqb_eq.
Qed.

Lemma indeterminate_false (a : TSLength) :
  indeterminate a = false <-> (chars a <= 0 \/ bytes a <> 0).
Proof.
  unfold indeterminate. rewrite andb_false_iff, Z.ltb_ge, Z.eqb_neq. tauto.
Qed.

Lemma length_eq_zero (b c : Z) :
  {| bytes := b; chars := c |} = ts_length_zero <-> b = 0 /\ c = 0.
Proof.
  unfold ts_length_zero. split.
  - intros E. now injection E.
  - now intros [-> ->].
Qed.

Lemma wf_length_fields (a : TSLength) :
  wf_length size_bits a ->
  0 <= bytes a < size_modulus size_bits
  /\ 0 <= chars a < size_modulus size_bits.
Proof.
  intros [Hb Hc]. now apply in_size_t_spec in Hb, Hc.
Qed.

Lemma wf_point_fields (p : TSPoint) :
  wf_point size_bits p ->
  0 <= line p < size_modulus size_bits
  /\ 0 <= column p < size_modulus size_bits.
Proof.
  intros [Hl Hc]. now apply in_size_t_spec in Hl, Hc.
Qed.

(** Without overflow, the sum of two lengths is indeterminate exactly when
    one of them is. *)
Lemma indeterminate_add (a b : TSLength) :
  wf_length size_bits a -> wf_length size_bits b ->
  bytes a + bytes b < size_modulus size_bits ->
  chars a + chars b < size_modulus size_bits ->
  indeterminate (ts_length_add size_bits a b) = poisoned a b.
Proof.
  intros Ha%wf_length_fields Hb%wf_length_fields Hbs Hcs.
  rewrite ts_length_add_eqn.
  destruct (poisoned a b) eqn:Hp.
  - apply indeterminate_spec; simpl. split; [| reflexivity].
    rewrite size_add_exact by lia.
    unfold poisoned in Hp. apply orb_true_iff in Hp.
    destruct Hp as [H | H]; apply indeterminate_spec in H; lia.
  - apply indeterminate_false; simpl.
    rewrite !size_add_exact by lia.
    unfold poisoned in Hp. apply orb_false_iff in Hp.
    destruct Hp as [H1 H2].
    apply indeterminate_false in H1, H2. lia.
Qed.

Lemma ts_length_add_wf (a b : TSLength) :
  wf_length size_bits (ts_length_add size_bits a b).
Proof.
  rewrite ts_length_add_eqn. split; simpl.
  - destruct (poisoned a b); [apply in_size_t_0 | apply to_size_t_in].
  - apply to_size_t_in.
Qed.

(** ** Equality of lengths, as a test *)

(** X1. [ts_length_eq] answers true exactly when the two lengths are the same
    pair, false exactly when a field differs, and does not depend on the order
    of its arguments. *)
Theorem ts_length_eq_exact (a b : TSLength) :
  (ts_length_eq a b = true <-> a = b)
  /\ (ts_length_eq a b = false <-> bytes a <> bytes b \/ chars a <> chars b)
  /\ ts_length_eq a b = ts_length_eq b a.
Proof.
  split; [apply ts_length_eq_spec |]. split.
  - unfold ts_length_eq. rewrite andb_false_iff, !Z.eqb_neq. tauto.
  - unfold ts_length_eq.
    now rewrite (Z.eqb_sym (bytes a)), (Z.eqb_sym (chars a)).
Qed.

(** ** Sums of lengths *)

(** X2. [ts_length_add] is associative on lengths whose byte counts and
    character counts add up without overflow: an indeterminate operand
    poisons the bytes of the whole sum whichever way it is grouped. *)
Theorem ts_length_add_assoc (a b c : TSLength) :
  wf_length size_bits a -> wf_length size_bits b -> wf_length size_bits c ->
  bytes a + bytes b + bytes c < size_modulus size_bits ->
  chars a + chars b + chars c < size_modulus size_bits ->
  ts_length_add size_bits (ts_length_add size_bits a b) c
  = ts_length_add size_bits a (ts_length_add size_bits b c).
Proof.
  intros Ha Hb Hc Hbs Hcs.
  pose proof (wf_length_fields _ Ha) as Fa.
  pose proof (wf_length_fields _ Hb) as Fb.
  pose proof (wf_length_fields _ Hc) as Fc.
  assert (Hab : indeterminate (ts_length_add size_bits a b) = poisoned a b)
    by (apply indeterminate_add; try assumption; lia).
  assert (Hbc : indeterminate (ts_length_add size_bits b c) = poisoned b c)
    by (apply indeterminate_add; try assumption; lia).
  rewrite (ts_length_add_eqn (ts_length_add size_bits a b) c).
  rewrite (ts_length_add_eqn a (ts_length_add size_bits b c)).
  rewrite !ts_length_add_chars, size_add_assoc.
  unfold poisoned at 1 2. rewrite Hab, Hbc.
  rewrite (ts_length_add_eqn a b), (ts_length_add_eqn b c). simpl.
  unfold poisoned.
  destruct (indeterminate a), (indeterminate b), (indeterminate c); simpl;
    try reflexivity.
  now rewrite size_add_assoc.
Qed.

(** X3. When the fields add up without overflow, the sum of two lengths is
    indeterminate exactly when one of the operands is: the marker survives
    addition and addition does not create it. *)
Theorem ts_length_add_indeterminate (a b : TSLength) :
  wf_length size_bits a -> wf_length size_bits b ->
  bytes a + bytes b < size_modulus size_bits ->
  chars a + chars b < size_modulus size_bits ->
  indeterminate (ts_length_add size_bits a b)
  = indeterminate a || indeterminate b.
Proof.
  intros Ha Hb Hbs Hcs. now rewrite indeterminate_add.
Qed.

(** ** Differences of lengths *)

(** X4. Subtracting a length from itself gives [ts_length_zero], whatever the
    length: no condition on its fields, and an indeterminate one included. *)
Theorem ts_length_sub_self (a : TSLength) :
  ts_length_sub size_bits a a = ts_length_zero.
Proof.
  rewrite ts_length_sub_eqn, !size_sub_diag.
  now destruct (poisoned a a).
Qed.

(** X5. Adding a determinate length and subtracting it again gives the first
    length back, provided the sum did not overflow.  The first length may be
    indeterminate. *)
Theorem ts_length_add_sub_cancel (a b : TSLength) :
  wf_length size_bits a -> wf_length size_bits b ->
  indeterminate b = false ->
  bytes a + bytes b < size_modulus size_bits ->
  chars a + chars b < size_modulus size_bits ->
  ts_length_sub size_bits (ts_length_add size_bits a b) b = a.
Proof.
  intros Ha Hb Hib Hbs Hcs.
  assert (Hab : indeterminate (ts_length_add size_bits a b) = poisoned a b)
    by now apply indeterminate_add.
  rewrite ts_length_sub_eqn.
  unfold poisoned at 1. rewrite Hab, Hib, orb_false_r.
  rewrite ts_length_add_chars, size_sub_add_cancel_r by apply Ha.
  rewrite ts_length_add_eqn; simpl.
  unfold poisoned. rewrite Hib, orb_false_r.
  destruct a as [ba ca]; simpl.
  destruct (indeterminate (mkLength ba ca)) eqn:Hia.
  - apply indeterminate_spec in Hia; simpl in Hia.
    destruct Hia as [_ ->]. reflexivity.
  - rewrite size_sub_add_cancel_r by apply Ha. reflexivity.
Qed.

(** X6. Subtracting a determinate length [b <= a] and adding it again gives
    [a] back exactly when the subtraction did not make an indeterminate
    length out of a determinate [a]. *)
Theorem ts_length_sub_add_cancel_iff (a b : TSLength) :
  wf_length size_bits a -> wf_length size_bits b ->
  length_le b a -> indeterminate b = false ->
  (ts_length_add size_bits (ts_length_sub size_bits a b) b = a
   <-> (indeterminate (ts_length_sub size_bits a b) = true ->
        indeterminate a = true)).
Proof.
  intros Ha Hb [Hlb Hlc] Hib.
  pose proof (wf_length_fields _ Ha) as [Fab Fac].
  pose proof (wf_length_fields _ Hb) as [Fbb Fbc].
  rewrite ts_length_add_eqn, ts_length_sub_chars.
  rewrite size_add_sub_cancel_l by apply Ha.
  unfold poisoned at 1. rewrite Hib, orb_false_r.
  destruct (indeterminate (ts_length_sub size_bits a b)) eqn:His.
  - split.
    + intros E _. apply (f_equal bytes) in E; simpl in E.
      apply indeterminate_spec in His. destruct His as [Hpos _].
      rewrite ts_length_sub_chars, size_sub_exact in Hpos by lia.
      apply indeterminate_spec. lia.
    + intros Hia. specialize (Hia eq_refl).
      apply indeterminate_spec in Hia. destruct Hia as [_ Hz].
      destruct a as [ba ca]; simpl in *. now subst ba.
  - split; [discriminate |]. intros _.
    rewrite ts_length_sub_eqn; simpl.
    destruct (poisoned a b) eqn:Hp.
    + unfold poisoned in Hp. rewrite Hib, orb_false_r in Hp.
      apply indeterminate_spec in Hp. destruct Hp as [Hpos Hz].
      rewrite size_add_exact by lia.
      destruct a as [ba ca]; simpl in *. f_equal. lia.
    + rewrite size_add_sub_cancel_l by apply Ha.
      now destruct a.
Qed.

(** X12. The difference of two lengths is indeterminate exactly when their
    character counts differ and its bytes came out 0: because an operand was
    indeterminate, or because the byte counts were equal. *)
Theorem ts_length_sub_indeterminate_iff (a b : TSLength) :
  wf_length size_bits a -> wf_length size_bits b ->
  (indeterminate (ts_length_sub size_bits a b) = true
   <-> chars a <> chars b
       /\ (indeterminate a = true \/ indeterminate b = true
           \/ bytes a = bytes b)).
Proof.
  intros Ha Hb.
  pose proof (size_sub_eq_0 (chars a) (chars b) (proj2 Ha) (proj2 Hb)) as Hc0.
  pose proof (size_sub_eq_0 (bytes a) (bytes b) (proj1 Ha) (proj1 Hb)) as Hb0.
  pose proof (to_size_t_range size_bits (chars a - chars b)) as Hr.
  fold (size_sub size_bits (chars a) (chars b)) in Hr.
  rewrite indeterminate_spec, ts_length_sub_eqn; simpl.
  unfold poisoned.
  set (dc := size_sub size_bits (chars a) (chars b)) in *.
  set (db := size_sub size_bits (bytes a) (bytes b)) in *.
  destruct (indeterminate a), (indeterminate b); simpl;
    intuition (try discriminate; try lia).
Qed.

(** X13. The difference of two lengths is [ts_length_zero] exactly when the
    character counts are equal and either the byte counts are equal too or an
    operand is indeterminate: on determinate lengths a zero difference means
    equality, with an indeterminate operand it does not. *)
Theorem ts_length_sub_zero_iff (a b : TSLength) :
  wf_length size_bits a -> wf_length size_bits b ->
  (ts_length_sub size_bits a b = ts_length_zero
   <-> chars a = chars b
       /\ (indeterminate a = true \/ indeterminate b = true
           \/ bytes a = bytes b)).
Proof.
  intros Ha Hb.
  pose proof (size_sub_eq_0 (chars a) (chars b) (proj2 Ha) (proj2 Hb)) as Hc0.
  pose proof (size_sub_eq_0 (bytes a) (bytes b) (proj1 Ha) (proj1 Hb)) as Hb0.
  rewrite ts_length_sub_eqn, length_eq_zero. unfold poisoned.
  set (dc := size_sub size_bits (chars a) (chars b)) in *.
  set (db := size_sub size_bits (bytes a) (bytes b)) in *.
  destruct (indeterminate a), (indeterminate b); simpl;
    intuition (try discriminate; try lia).
Qed.

(** ** Points and displacements *)

(** X7. [ts_point_sub] undoes [ts_point_add]: the displacement from [p] to
    [p + d] is [d], on the same line or across lines, and also when the
    addition wrapped around. *)
Theorem ts_point_add_sub_cancel (p d : TSPoint) :
  wf_point size_bits p -> wf_point size_bits d ->
  ts_point_sub size_bits (ts_point_add size_bits p d) p = d.
Proof.
  intros [Hpl Hpc] [Hdl Hdc].
  destruct p as [pl pc], d as [dl dc]; simpl in *.
  unfold ts_point_add; simpl.
  destruct (Z.eqb_spec dl 0) as [-> | Hne].
  - rewrite size_add_0_r by assumption.
    rewrite ts_point_sub_same_line by reflexivity. simpl.
    now rewrite size_sub_add_cancel_l.
  - rewrite ts_point_sub_other_line; simpl.
    + now rewrite size_sub_add_cancel_l.
    + intros E. apply (proj1 (size_add_fixed _ _ Hpl Hdl)) in E.
      contradiction.
Qed.

(** X8. [ts_point_add] undoes [ts_point_sub]: adding to [p] the displacement
    from [p] to [q] gives [q], also when [q] comes before [p] and the
    subtraction wrapped around. *)
Theorem ts_point_sub_add_cancel (p q : TSPoint) :
  wf_point size_bits p -> wf_point size_bits q ->
  ts_point_add size_bits p (ts_point_sub size_bits q p) = q.
Proof.
  intros [Hpl Hpc] [Hql Hqc].
  destruct p as [pl pc], q as [ql qc]; simpl in *.
  destruct (Z.eq_dec ql pl) as [-> | Hne].
  - rewrite ts_point_sub_same_line by reflexivity.
    unfold ts_point_add; simpl.
    now rewrite size_add_0_r, size_add_sub_cancel by assumption.
  - rewrite ts_point_sub_other_line by assumption.
    unfold ts_point_add; simpl.
    rewrite size_add_sub_cancel by assumption.
    destruct (Z.eqb_spec (size_sub size_bits ql pl) 0) as [E | _];
      [| reflexivity].
    apply (proj1 (size_sub_eq_0 _ _ Hql Hpl)) in E. contradiction.
Qed.

(** X9. [ts_point_add] is associative as long as the two displacements'
    line counts add up without overflow: moving by [d1] and then by [d2] is
    moving by [d1 + d2]. *)
Theorem ts_point_add_assoc (p d1 d2 : TSPoint) :
  wf_point size_bits d1 -> wf_point size_bits d2 ->
  line d1 + line d2 < size_modulus size_bits ->
  ts_point_add size_bits (ts_point_add size_bits p d1) d2
  = ts_point_add size_bits p (ts_point_add size_bits d1 d2).
Proof.
  intros H1 H2 Hsum.
  pose proof (wf_point_fields _ H1) as [F1l F1c].
  pose proof (wf_point_fields _ H2) as [F2l F2c].
  destruct p as [pl pc], d1 as [l1 c1], d2 as [l2 c2]; simpl in *.
  unfold ts_point_add; simpl.
  rewrite size_add_assoc. f_equal.
  destruct (Z.eqb_spec l2 0) as [-> | Hne].
  - rewrite (size_add_exact size_bits l1 0) by lia.
    rewrite Z.add_0_r.
    destruct (l1 =? 0); [apply size_add_assoc | reflexivity].
  - rewrite (size_add_exact size_bits l1 l2) by lia.
    destruct (Z.eqb_spec (l1 + l2) 0); [lia | reflexivity].
Qed.

(** X10. The displacement (0, 0) is the unit of point arithmetic: added on
    the left it leaves a point unchanged, subtracted it leaves a point
    unchanged, and it is the difference of every point with itself. *)
Theorem ts_point_null_displacement (p : TSPoint) :
  wf_point size_bits p ->
  ts_point_add size_bits (ts_point_make 0 0) p = p
  /\ ts_point_sub size_bits p (ts_point_make 0 0) = p
  /\ ts_point_sub size_bits p p = ts_point_make 0 0.
Proof.
  intros [Hl Hc]. destruct p as [l c]; simpl in *.
  repeat match goal with |- _ /\ _ => split end.
  - unfold ts_point_add, ts_point_make; simpl.
    rewrite !size_add_0_l by assumption.
    now destruct (l =? 0).
  - unfold ts_point_sub, ts_point_make; simpl.
    rewrite !size_sub_0_r by assumption.
    destruct (Z.eqb_spec l 0) as [-> | _]; reflexivity.
  - rewrite ts_point_sub_same_line by reflexivity. simpl.
    now rewrite size_sub_diag.
Qed.

(** X11. The difference of two points is the displacement (0, 0) exactly
    when the two points are equal. *)
Theorem ts_point_sub_null_iff (p q : TSPoint) :
  wf_point size_bits p -> wf_point size_bits q ->
  (ts_point_sub size_bits p q = ts_point_make 0 0 <-> p = q).
Proof.
  intros [Hpl Hpc] [Hql Hqc].
  destruct p as [pl pc], q as [ql qc]; simpl in *. split.
  - destruct (Z.eq_dec pl ql) as [-> | Hne].
    + rewrite ts_point_sub_same_line by reflexivity.
      unfold ts_point_make; simpl. intros E. injection E as E.
      apply (proj1 (size_sub_eq_0 _ _ Hpc Hqc)) in E. now subst.
    + rewrite ts_point_sub_other_line by assumption.
      unfold ts_point_make; simpl. intros E. injection E as E _.
      apply (proj1 (size_sub_eq_0 _ _ Hpl Hql)) in E. contradiction.
  - intros E. injection E as -> ->.
    rewrite ts_point_sub_same_line by reflexivity. simpl.
    now rewrite size_sub_diag.
Qed.

End Composition.

(** ** Instances of the composition laws, on a 64-bit [size_t] *)

Lemma ts_length_add_assoc_witness :
  ts_length_add 64
    (ts_length_add 64 (ts_length_make 0 5) (ts_length_make 10 3))
    (ts_length_make 7 2)
  = ts_length_add 64 (ts_length_make 0 5)
      (ts_length_add 64 (ts_length_make 10 3) (ts_length_make 7 2)).
Proof.
  apply (ts_length_add_assoc 64);
    first [split; reflexivity | reflexivity].
Defined.

Lemma ts_length_add_indeterminate_witness :
  indeterminate (ts_length_add 64 (ts_length_make 0 5) (ts_length_make 10 3))
  = true.
Proof.
  apply (ts_length_add_indeterminate 64
           (ts_length_make 0 5) (ts_length_make 10 3));
    first [split; reflexivity | reflexivity].
Defined.

Lemma ts_length_add_sub_cancel_witness :
  ts_length_sub 64
    (ts_length_add 64 (ts_length_make 0 5) (ts_length_make 10 3))
    (ts_length_make 10 3)
  = ts_length_make 0 5.
Proof.
  apply (ts_length_add_sub_cancel 64
           (ts_length_make 0 5) (ts_length_make 10 3));
    first [split; reflexivity | reflexivity].
Defined.

Lemma ts_length_sub_add_cancel_iff_witness :
  ts_length_add 64
    (ts_length_sub 64 (ts_length_make 10 5) (ts_length_make 7 3))
    (ts_length_make 7 3)
  = ts_length_make 10 5
  /\ ts_length_add 64
       (ts_length_sub 64 (ts_length_make 5 5) (ts_length_make 5 3))
       (ts_length_make 5 3)
     <> ts_length_make 5 5.
Proof.
  split.
  - apply (ts_length_sub_add_cancel_iff 64
             (ts_length_make 10 5) (ts_length_make 7 3));
      try (split; reflexivity); try reflexivity.
    + split; simpl; lia.
    + discriminate.
  - intros E.
    apply (ts_length_sub_add_cancel_iff 64
             (ts_length_make 5 5) (ts_length_make 5 3)) in E;
      try (split; reflexivity); try reflexivity.
    + discriminate.
    + split; simpl; lia.
Defined.

Lemma ts_length_sub_indeterminate_iff_witness :
  indeterminate (ts_length_sub 64 (ts_length_make 5 5) (ts_length_make 5 3))
  = true.
Proof.
  apply (ts_length_sub_indeterminate_iff 64
           (ts_length_make 5 5) (ts_length_make 5 3));
    try (split; reflexivity).
  split; [discriminate | right; right; reflexivity].
Defined.

Lemma ts_length_sub_zero_iff_witness :
  ts_length_sub 64 (ts_length_make 0 5) (ts_length_make 7 5) = ts_length_zero
  /\ ts_length_make 0 5 <> ts_length_make 7 5.
Proof.
  split; [| discriminate].
  apply (ts_length_sub_zero_iff 64
           (ts_length_make 0 5) (ts_length_make 7 5));
    try (split; reflexivity).
  split; [reflexivity | left; reflexivity].
Defined.

Lemma ts_point_add_sub_cancel_witness :
  ts_point_sub 64
    (ts_point_add 64 (ts_point_make 2 5) (ts_point_make 1 3))
    (ts_point_make 2 5)
  = ts_point_make 1 3.
Proof.
  apply (ts_point_add_sub_cancel 64 (ts_point_make 2 5) (ts_point_make 1 3));
    split; reflexivity.
Defined.

Lemma ts_point_sub_add_cancel_witness :
  ts_point_sub 64 (ts_point_make 2 3) (ts_point_make 4 10)
  = ts_point_make (2 ^ 64 - 2) 3
  /\ ts_point_add 64 (ts_point_make 4 10)
       (ts_point_sub 64 (ts_point_make 2 3) (ts_point_make 4 10))
     = ts_point_make 2 3.
Proof.
  split; [reflexivity |].
  apply (ts_point_sub_add_cancel 64 (ts_point_make 4 10) (ts_point_make 2 3));
    split; reflexivity.
Defined.

Lemma ts_point_add_assoc_witness :
  ts_point_add 64
    (ts_point_add 64 (ts_point_make 2 5) (ts_point_make 1 3))
    (ts_point_make 0 4)
  = ts_point_add 64 (ts_point_make 2 5)
      (ts_point_add 64 (ts_point_make 1 3) (ts_point_make 0 4)).
Proof.
  apply (ts_point_add_assoc 64);
    first [split; reflexivity | reflexivity].
Defined.

Lemma ts_point_null_displacement_witness :
  ts_point_add 64 (ts_point_make 0 0) (ts_point_make 2 5) = ts_point_make 2 5
  /\ ts_point_sub 64 (ts_point_make 2 5) (ts_point_make 0 0)
     = ts_point_make 2 5
  /\ ts_point_sub 64 (ts_point_make 2 5) (ts_point_make 2 5)
     = ts_point_make 0 0.
Proof.
  apply (ts_point_null_displacement 64 (ts_point_make 2 5)).
  split; reflexivity.
Defined.

Lemma ts_point_sub_null_iff_witness :
  ts_point_sub 64 (ts_point_make 4 10) (ts_point_make 2 3)
  <> ts_point_make 0 0.
Proof.
  intros E.
  apply (ts_point_sub_null_iff 64 (ts_point_make 4 10) (ts_point_make 2 3))
    in E; try (split; reflexivity).
  discriminate.
Defined.
